(** * doc/conf.py of EVFS: the build-version extractor

    [parse_build_version] opens a header file in text mode, reads all its
    lines and returns group 1 of the first line on which [re.match]
    succeeds with the version pattern, or ['1.0.0'] when the loop runs off
    the end of the file.  It fails when the file cannot be opened and when
    its bytes do not decode.

    Python strings are sequences of code points.  The text is modelled as
    [list ascii], a character being a code point below 256; the classes
    [\s] and [\w] are the ones [re] uses for [str] patterns on that range.
    The regular expression is modelled the way [re] runs it: the pattern is
    a flat list of opcodes and the matcher is a backtracking interpreter
    whose greedy repeat tries the longest run first. *)

From Stdlib Require Import String Ascii List Bool Arith NArith Lia.
Import ListNotations.
Open Scope bool_scope.
Open Scope list_scope.

(** ** Text *)

Definition text := list ascii.

Definition lit (s : string) : text := list_ascii_of_string s.

Definition newline : ascii := "010"%char.
Definition carriage_return : ascii := "013"%char.
Definition dquote : ascii := "034"%char.

(** [v] between double quotes. *)
Definition quoted (v : text) : text := dquote :: v ++ [dquote].

(** Python values that [parse_build_version] can hand back. *)
Inductive pyval : Type :=
| PyNone
| PyStr (s : text).

(** ** Character classes of [re] (str patterns, code points 0..255) *)

Definition in_range (lo hi : N) (a : ascii) : bool :=
  let n := N_of_ascii a in (lo <=? n)%N && (n <=? hi)%N.

(** [\s]: [str.isspace] - TAB..CR, FS..US, space, NEL, NBSP. *)
Definition is_space (a : ascii) : bool :=
  in_range 9 13 a || in_range 28 32 a || in_range 133 133 a
  || in_range 160 160 a.

(** [\w]: [str.isalnum] or underscore. *)
Definition is_word (a : ascii) : bool :=
  in_range 48 57 a || in_range 65 90 a || in_range 95 95 a
  || in_range 97 122 a || in_range 170 170 a || in_range 178 179 a
  || in_range 181 181 a || in_range 185 186 a || in_range 188 190 a
  || in_range 192 214 a || in_range 216 246 a || in_range 248 255 a.

Inductive category : Type :=
| CATEGORY_SPACE   (* \s *)
| CATEGORY_WORD    (* \w *)
| ANY.             (* .  (no DOTALL flag: everything but a newline) *)

Definition category_mem (c : category) (a : ascii) : bool :=
  match c with
  | CATEGORY_SPACE => is_space a
  | CATEGORY_WORD => is_word a
  | ANY => negb (Ascii.eqb a newline)
  end.

(** ** The matcher *)

(** Opcodes of a compiled pattern.  [MAX_REPEAT min c] is the greedy
    [c{min,}] over a one-character class, which is all this pattern uses;
    [MARK i] records the current position in mark [i] (group [g] owns the
    marks [2g-2] and [2g-1]). *)
Inductive opcode : Type :=
| AT_BEGINNING
| LITERAL (a : ascii)
| MAX_REPEAT (min : nat) (c : category)
| MARK (i : nat).

Definition pattern := list opcode.

(** The marks set so far, most recent first. *)
Definition marks := list (nat * nat).

Fixpoint lastmark (i : nat) (m : marks) : option nat :=
  match m with
  | [] => None
  | (j, p) :: m' => if Nat.eqb i j then Some p else lastmark i m'
  end.

Definition cont := nat -> text -> marks -> option marks.

(** Greedy repeat: [n] characters of the class have been taken; take one
    more if there is one and run the rest of the pattern from there; when
    that fails give the character back and try the continuation here,
    provided the minimum count is reached. *)
Fixpoint max_repeat (c : category) (min : nat) (k : cont)
    (n pos : nat) (s : text) (m : marks) {struct s} : option marks :=
  let stop := if min <=? n then k pos s m else None in
  match s with
  | a :: s' =>
      if category_mem c a then
        match max_repeat c min k (S n) (S pos) s' m with
        | Some r => Some r
        | None => stop
        end
      else stop
  | [] => stop
  end.

Fixpoint run (pat : pattern) : cont :=
  match pat with
  | [] => fun _ _ m => Some m
  | op :: pat' =>
      match op with
      | AT_BEGINNING =>
          fun pos s m => if pos =? 0 then run pat' pos s m else None
      | LITERAL a =>
          fun pos s m =>
            match s with
            | b :: s' => if Ascii.eqb b a then run pat' (S pos) s' m else None
            | [] => None
            end
      | MAX_REPEAT min c => max_repeat c min (run pat') 0
      | MARK i => fun pos s m => run pat' pos s ((i, pos) :: m)
      end
  end.

(** A match object: the subject string and the marks. *)
Record match_object : Type := MatchObject
  { mo_string : text;
    mo_regs : marks }.

(** [re.match(pat, s)]: match at the start of [s]; [None] when it fails. *)
Definition re_match (pat : pattern) (s : text) : option match_object :=
  match run pat 0 s [] with
  | Some m => Some (MatchObject s m)
  | None => None
  end.

(** [s[a:b]] *)
Definition slice (s : text) (a b : nat) : text := firstn (b - a) (skipn a s).

(** [m.group(g)] for [g >= 1]: the text the group matched, [None] when the
    group took no part in the match. *)
Definition group (m : match_object) (g : nat) : pyval :=
  match lastmark (2 * g - 2) (mo_regs m), lastmark (2 * g - 1) (mo_regs m) with
  | Some a, Some b => PyStr (slice (mo_string m) a b)
  | _, _ => PyNone
  end.

Definition literals (s : string) : pattern := map LITERAL (lit s).

(** The pattern of [parse_build_version], piece by piece:
      ^          AT_BEGINNING
      #define    the seven literals
      \s+        MAX_REPEAT 1 CATEGORY_SPACE
      \w+        MAX_REPEAT 1 CATEGORY_WORD
      _VERSION   the eight literals
      \s+        MAX_REPEAT 1 CATEGORY_SPACE
      a double quote, then group 1, a greedy [.] repeated zero or more
      times between MARK 0 and MARK 1, then a double quote. *)
Definition version_re : pattern :=
  [AT_BEGINNING] ++ literals "#define"
  ++ [MAX_REPEAT 1 CATEGORY_SPACE; MAX_REPEAT 1 CATEGORY_WORD]
  ++ literals "_VERSION"
  ++ [MAX_REPEAT 1 CATEGORY_SPACE; LITERAL dquote;
      MARK 0; MAX_REPEAT 0 ANY; MARK 1; LITERAL dquote].

(** ** Files *)

(** A file as the text layer of [open(fname, 'r')] reads it.  The codec is
    the one of the locale, which conf.py does not choose; under it the
    bytes of the file either all decode, to [content], or decode up to
    [valid] and go on with bytes the codec rejects (a byte FF under UTF-8,
    say). *)
Inductive file : Type :=
| Text (content : text)
| Undecodable (valid : text).

(** The files that can be opened; nothing for a name that cannot. *)
Definition filesystem := string -> option file.

Inductive exn : Type :=
| OSError (fname : string)
| UnicodeDecodeError
| UnicodeEncodeError.

Inductive outcome (A : Type) : Type :=
| Return (a : A)
| Raise (e : exn).
Arguments Return {A} a.
Arguments Raise {A} e.

Definition bind {A B : Type} (x : outcome A) (f : A -> outcome B) : outcome B :=
  match x with
  | Return a => f a
  | Raise e => Raise e
  end.

Definition open_ (fs : filesystem) (fname : string) : outcome file :=
  match fs fname with
  | Some fh => Return fh
  | None => Raise (OSError fname)
  end.

(** Text mode with the default [newline=None]: CR LF and a lone CR are
    read as LF. *)
Fixpoint universal_newlines (s : text) : text :=
  match s with
  | [] => []
  | a :: s' =>
      if Ascii.eqb a carriage_return then
        newline :: match s' with
                   | b :: s'' =>
                       if Ascii.eqb b newline then universal_newlines s''
                       else universal_newlines s'
                   | [] => []
                   end
      else a :: universal_newlines s'
  end.

(** Cut after every newline; each line keeps its newline, the last line has
    one only if the text ends with one. *)
Fixpoint splitlines (s : text) : list text :=
  match s with
  | [] => []
  | a :: s' =>
      if Ascii.eqb a newline then [a] :: splitlines s'
      else match splitlines s' with
           | [] => [[a]]
           | l :: ls => (a :: l) :: ls
           end
  end.

(** The lines of a decoded text. *)
Definition readlines (content : text) : list text :=
  splitlines (universal_newlines content).

(** [fh.readlines()]: the whole file is read and decoded before any line
    is handed out, so bytes that do not decode make it fail wherever they
    stand. *)
Definition fh_readlines (fh : file) : outcome (list text) :=
  match fh with
  | Text content => Return (readlines content)
  | Undecodable _ => Raise UnicodeDecodeError
  end.

(** ** parse_build_version *)

(** The [for] loop: [Some v] when the body returned [v], [None] when the
    loop ran to its end. *)
Fixpoint for_lines (lines : list text) : option pyval :=
  match lines with
  | [] => None
  | ln :: rest =>
      match re_match version_re ln with
      | Some m => Some (group m 1)
      | None => for_lines rest
      end
  end.

Definition default_version : text := lit "1.0.0".

Definition parse_build_version (fs : filesystem) (fname : string)
  : outcome pyval :=
  bind (open_ fs fname) (fun fh =>
  bind (fh_readlines fh) (fun lines =>
    match for_lines lines with
    | Some v => Return v
    | None => Return (PyStr default_version)
    end)).

(** The module level of conf.py, as far as it depends on the header:
    the names it binds and the text it writes to the standard output. *)
Record config : Type := Config
  { project : text;
    author : text;
    release : pyval;
    stdout : text }.

Definition build_config_h : string := "../include/evfs/evfs_build_config.h".

(** [str(v)] *)
Definition py_str (v : pyval) : text :=
  match v with
  | PyNone => lit "None"
  | PyStr s => s
  end.

(** The characters the encoding of [sys.stdout] can write. *)
Definition stdout_codec := ascii -> bool.

(** [print(a, b)]: the two arguments as strings, a space between them and
    a newline after them; the write fails on a character that the encoding
    of the standard output does not have. *)
Definition print_ (enc : stdout_codec) (a b : pyval) : outcome text :=
  let line := py_str a ++ lit " " ++ py_str b ++ [newline] in
  if forallb enc line then Return line else Raise UnicodeEncodeError.

Definition conf (enc : stdout_codec) (fs : filesystem) : outcome config :=
  bind (parse_build_version fs build_config_h) (fun rel =>
  bind (print_ enc (PyStr (lit "BUILD RELEASE:")) rel) (fun out =>
    Return {| project := lit "EVFS";
              author := lit "Kevin Thibedeau";
              release := rel;
              stdout := out |})).

(** A file system holding one file, which decodes. *)
Definition single_file (name : string) (content : text) : filesystem :=
  fun f => if String.eqb f name then Some (Text content) else None.

(** A file system holding one file, whose bytes after [valid] do not
    decode. *)
Definition single_broken_file (name : string) (valid : text) : filesystem :=
  fun f => if String.eqb f name then Some (Undecodable valid) else None.

(** A standard output that takes the ASCII characters only, and one that
    takes every character. *)
Definition ascii_stdout : stdout_codec := fun a => (N_of_ascii a <? 128)%N.

Definition any_stdout : stdout_codec := fun _ => true.

(** Group 1 of the match on one line, if the line matches. *)
Definition version_of (ln : text) : option pyval :=
  option_map (fun m => group m 1) (re_match version_re ln).

Definition all_in (c : category) (w : text) : bool :=
  forallb (category_mem c) w.

Definition starts_in (c : category) (s : text) : bool :=
  match s with
  | a :: _ => category_mem c a
  | [] => false
  end.

(** A double quote occurs in [r] before any newline. *)
Fixpoint closes (r : text) : bool :=
  match r with
  | [] => false
  | a :: r' =>
      if Ascii.eqb a newline then false
      else if Ascii.eqb a dquote then true
      else closes r'
  end.

(** The value of a definition is enclosed in double quotes: it opens with
    one and another one follows on the same line. *)
Definition enclosed (v : text) : bool :=
  match v with
  | a :: r => Ascii.eqb a dquote && closes r
  | [] => false
  end.

(** A C identifier. *)
Definition is_ident_start (a : ascii) : bool :=
  in_range 65 90 a || in_range 97 122 a || in_range 95 95 a.

Definition c_identifier (w : text) : bool :=
  match w with
  | a :: w' => is_ident_start a && forallb (fun b => is_ident_start b || in_range 48 57 b) w'
  | [] => false
  end.

(** The shape of a definition line: the directive, white space, a name made
    of [id] and [_VERSION], white space, and the rest of the line. *)
Definition define_line (ws1 id ws2 value : text) : text :=
  lit "#define" ++ ws1 ++ id ++ lit "_VERSION" ++ ws2 ++ value.

(** Candidates of a greedy repeat of class [c] followed by the
    continuation [k]: no longer run of the class leads to a match. *)
Definition longer_fail (c : category) (k : cont) (m : marks)
    (pos : nat) (s : text) : Prop :=
  forall u v, s = u ++ v -> u <> [] -> all_in c u = true ->
              k (pos + length u) v m = None.

(** No shorter run leads to a match. *)
Definition shorter_fail (k : cont) (m : marks)
    (pos : nat) (w s : text) : Prop :=
  forall w1 w2, w = w1 ++ w2 -> w2 <> [] ->
                k (pos + length w1) (w2 ++ s) m = None.

(** One or more characters of a class, as [\s+] and [\w+] take them. *)
Definition some_in (c : category) (w : text) : bool :=
  match w with
  | [] => false
  | _ :: _ => all_in c w
  end.

(** The line does not match the version pattern. *)
Definition no_match (ln : text) : bool :=
  match re_match version_re ln with
  | Some _ => false
  | None => true
  end.

(** The pattern from the opening double quote on, and from the end of the
    name on. *)
Definition group_pat : pattern :=
  [LITERAL dquote; MARK 0; MAX_REPEAT 0 ANY; MARK 1; LITERAL dquote].

Definition name_pat : pattern :=
  literals "_VERSION" ++ MAX_REPEAT 1 CATEGORY_SPACE :: group_pat.

(** The marks of a match whose group starts at [p] and is [n] long. *)
Definition group_marks (p n : nat) (m : marks) : marks :=
  (1, p + n) :: (0, p) :: m.

(** A newline occurs in [t] at its end only. *)
Fixpoint nl_last (t : text) : bool :=
  match t with
  | [] => true
  | a :: t' =>
      if Ascii.eqb a newline
      then match t' with [] => true | _ :: _ => false end
      else nl_last t'
  end.

(** What [readlines] gives for a line: not empty, a newline at its end
    only. *)
Definition is_line (l : text) : bool :=
  match l with
  | [] => false
  | _ :: _ => nl_last l
  end.

Definition quote_free (s : text) : bool :=
  forallb (fun a => negb (Ascii.eqb a dquote)) s.

(** The text after the first double quote of [s]. *)
Fixpoint after_first_quote (s : text) : option text :=
  match s with
  | [] => None
  | a :: s' => if Ascii.eqb a dquote then Some s' else after_first_quote s'
  end.

(** The text before the last double quote of [s]. *)
Fixpoint before_last_quote (s : text) : option text :=
  match s with
  | [] => None
  | a :: s' =>
      match before_last_quote s' with
      | Some r => Some (a :: r)
      | None => if Ascii.eqb a dquote then Some [] else None
      end
  end.

(** The text between the first and the last double quote of a line. *)
Definition between_outer_quotes (ln : text) : option text :=
  match after_first_quote ln with
  | Some r => before_last_quote r
  | None => None
  end.


(** A definition with two literals side by side. *)
Definition two_literals_line : text :=
  lit "#define FOO_VERSION " ++ quoted (lit "1.0") ++ lit " "
  ++ quoted (lit "2.0").

(** The sample lines and files the properties are tried on. *)
Definition foo_version_line : text :=
  lit "#define FOO_VERSION " ++ quoted (lit "2.3.1").

Definition bar_version_line : text :=
  lit "#define BAR_VERSION " ++ quoted (lit "0.9").

Definition indented_line : text := lit "  " ++ foo_version_line.

Definition bare_name_line : text :=
  lit "#define _VERSION " ++ quoted (lit "2.3.1").

Definition unquoted_line : text := lit "#define FOO_VERSION 2.3.1".

Definition two_literals : text :=
  lit "1.0" ++ dquote :: lit " " ++ dquote :: lit "2.0".

Definition comment_line : text := lit "/* build configuration */".

Definition unlines (lines : list text) : text :=
  concat (map (fun l => l ++ [newline]) lines).

Definition unlines_crlf (lines : list text) : text :=
  concat (map (fun l => l ++ [carriage_return; newline]) lines).

Example readlines_crlf :
  readlines (lit "a" ++ carriage_return :: newline :: lit "b")
  = [lit "a" ++ [newline]; lit "b"].
Proof. reflexivity. Qed.

Example match_plain :
  version_of (lit "#define FOO_VERSION " ++ quoted (lit "2.3.1"))
  = Some (PyStr (lit "2.3.1")).
Proof. reflexivity. Qed.

Example match_trailing_comment :
  version_of (lit "#define 9_VERSION " ++ quoted (lit "x") ++ lit " // "
              ++ quoted (lit "y") ++ [newline])
  = Some (PyStr (lit "x" ++ dquote :: lit " // " ++ dquote :: lit "y")).
Proof. reflexivity. Qed.

Example match_unclosed :
  version_of (lit "#define A_VERSION " ++ dquote :: lit "x") = None.
Proof. reflexivity. Qed.

Example match_tab_and_letter :
  version_of (lit "#define " ++ "233"%char :: lit "_VERSION"
              ++ "009"%char :: quoted (lit "a") ++ lit "b")
  = Some (PyStr (lit "a")).
Proof. reflexivity. Qed.

Example readlines_mixed :
  readlines (lit "a" ++ carriage_return :: newline :: lit "b"
             ++ carriage_return :: lit "c" ++ newline :: newline :: lit "d")
  = [lit "a" ++ [newline]; lit "b" ++ [newline]; lit "c" ++ [newline];
     [newline]; lit "d"].
Proof. reflexivity. Qed.

Example conf_prints_release :
  conf ascii_stdout (single_file build_config_h (unlines [foo_version_line]))
  = Return {| project := lit "EVFS";
              author := lit "Kevin Thibedeau";
              release := PyStr (lit "2.3.1");
              stdout := lit "BUILD RELEASE: 2.3.1" ++ [newline] |}.
Proof. reflexivity. Qed.

Example conf_encoding_error :
  conf ascii_stdout
    (single_file build_config_h
       (lit "#define A_VERSION " ++ quoted ["233"%char]))
  = Raise UnicodeEncodeError.
Proof. reflexivity. Qed.

Example conf_decoding_error :
  conf any_stdout
    (single_broken_file build_config_h (unlines [foo_version_line]))
  = Raise UnicodeDecodeError.
Proof. reflexivity. Qed.

Ltac splits := repeat match goal with |- _ /\ _ => split end.

(** ** Character classes *)

Lemma space_not_word (a : ascii) : is_space a = true -> is_word a = false.
Proof.
  destruct a as [[] [] [] [] [] [] [] []]; vm_compute; congruence.
Qed.

Lemma word_not_space (a : ascii) : is_word a = true -> is_space a = false.
Proof.
  intros Hw. destruct (is_space a) eqn:Hs; [|reflexivity].
  apply space_not_word in Hs. congruence.
Qed.

Lemma all_in_app c u v : all_in c (u ++ v) = all_in c u && all_in c v.
Proof. apply forallb_app. Qed.

Lemma all_in_In c w a : all_in c w = true -> In a w -> category_mem c a = true.
Proof.
  unfold all_in. rewrite forallb_forall. auto.
Qed.

(** ** The greedy repeat *)

Section MaxRepeat.

Variables (c : category) (min : nat) (k : cont) (m : marks).

Lemma longer_fail_tail pos a s :
  longer_fail c k m pos (a :: s) -> category_mem c a = true ->
  longer_fail c k m (S pos) s.
Proof.
  intros H Ha u v -> Hu Hc.
  specialize (H (a :: u) v eq_refl).
  simpl in H. rewrite Nat.add_succ_r in H. apply H.
  - discriminate.
  - unfold all_in in *. simpl. now rewrite Ha.
Qed.

Lemma max_repeat_here s : forall n pos,
  longer_fail c k m pos s ->
  max_repeat c min k n pos s m = if min <=? n then k pos s m else None.
Proof.
  induction s as [|a s IH]; intros n pos H; simpl; [reflexivity|].
  destruct (category_mem c a) eqn:Ha; [|reflexivity].
  rewrite IH by (apply longer_fail_tail with a; assumption).
  specialize (H [a] s eq_refl).
  simpl in H. rewrite Nat.add_1_r in H.
  rewrite H; [| discriminate | unfold all_in; simpl; now rewrite Ha].
  now destruct (min <=? S n).
Qed.

(** The longest run from which the rest of the pattern matches wins. *)
Lemma max_repeat_greedy w s2 r : forall n pos,
  all_in c w = true ->
  longer_fail c k m (pos + length w) s2 ->
  min <= n + length w ->
  k (pos + length w) s2 m = Some r ->
  max_repeat c min k n pos (w ++ s2) m = Some r.
Proof.
  induction w as [|a w IH]; intros n pos Hw Hl Hmin Hk; simpl in *.
  - rewrite Nat.add_0_r in *. rewrite max_repeat_here by assumption.
    apply Nat.leb_le in Hmin. now rewrite Hmin.
  - apply andb_prop in Hw as [Ha Hw]. rewrite Ha.
    rewrite Nat.add_succ_r in *.
    now rewrite (IH (S n) (S pos)).
Qed.

(** When a single run can lead to a match, the repeat is the continuation
    after that run. *)
Lemma max_repeat_unique w s2 : forall n pos,
  all_in c w = true ->
  longer_fail c k m (pos + length w) s2 ->
  shorter_fail k m pos w s2 ->
  min <= n + length w ->
  max_repeat c min k n pos (w ++ s2) m = k (pos + length w) s2 m.
Proof.
  induction w as [|a w IH]; intros n pos Hw Hl Hs Hmin; simpl in *.
  - rewrite Nat.add_0_r in *. rewrite max_repeat_here by assumption.
    apply Nat.leb_le in Hmin. now rewrite Hmin.
  - apply andb_prop in Hw as [Ha Hw]. rewrite Ha.
    rewrite Nat.add_succ_r in *.
    rewrite (IH (S n) (S pos)); try assumption.
    + change (S pos + length w) with (S (pos + length w)).
      destruct (k (S (pos + length w)) s2 m) eqn:Hk; [reflexivity|].
      specialize (Hs [] (a :: w) eq_refl).
      simpl in Hs. rewrite Nat.add_0_r in Hs.
      rewrite Hs by discriminate. now destruct (min <=? n).
    + intros w1 w2 -> Hw2.
      specialize (Hs (a :: w1) w2 eq_refl Hw2).
      simpl in Hs. now rewrite Nat.add_succ_r in Hs.
Qed.

Lemma max_repeat_none s : forall n pos,
  max_repeat c min k n pos s m = None ->
  forall u v, s = u ++ v -> all_in c u = true -> min <= n + length u ->
              k (pos + length u) v m = None.
Proof.
  induction s as [|a s IH]; intros n pos H u v E Hu Hmin.
  - symmetry in E. apply app_eq_nil in E as [-> ->].
    simpl in *. rewrite Nat.add_0_r in *.
    apply Nat.leb_le in Hmin. now rewrite Hmin in H.
  - simpl in H. destruct u as [|b u]; simpl in *.
    + subst v. rewrite Nat.add_0_r in *.
      apply Nat.leb_le in Hmin. rewrite Hmin in H.
      destruct (category_mem c a); [|assumption].
      now destruct (max_repeat c min k (S n) (S pos) s m).
    + injection E as <- E. apply andb_prop in Hu as [Ha Hu].
      rewrite Ha in H. rewrite Nat.add_succ_r in *.
      apply (IH (S n) (S pos)); try assumption.
      now destruct (max_repeat c min k (S n) (S pos) s m).
Qed.

(** A match through the repeat comes from some run of the class, at least
    [min] long, and from no longer one. *)
Lemma max_repeat_inv s r : forall n pos,
  max_repeat c min k n pos s m = Some r ->
  exists w s2,
    s = w ++ s2 /\ all_in c w = true /\ min <= n + length w /\
    k (pos + length w) s2 m = Some r /\
    longer_fail c k m (pos + length w) s2.
Proof.
  induction s as [|a s IH]; intros n pos H; simpl in H.
  - destruct (min <=? n) eqn:Hmin; [|discriminate].
    apply Nat.leb_le in Hmin.
    exists [], []. simpl. rewrite !Nat.add_0_r.
    splits; auto.
    intros u v E Hu. symmetry in E. apply app_eq_nil in E as [-> _].
    now contradiction Hu.
  - assert (Hstop : (if min <=? n then k pos (a :: s) m else None) = Some r ->
                    (category_mem c a = true ->
                     max_repeat c min k (S n) (S pos) s m = None) ->
                    exists w s2,
                      a :: s = w ++ s2 /\ all_in c w = true /\
                      min <= n + length w /\
                      k (pos + length w) s2 m = Some r /\
                      longer_fail c k m (pos + length w) s2).
    { intros Hk Hnone.
      destruct (min <=? n) eqn:Hmin; [|discriminate].
      apply Nat.leb_le in Hmin.
      exists [], (a :: s). simpl. rewrite !Nat.add_0_r.
      splits; auto.
      intros u v E Hu Hc. destruct u as [|b u]; [now contradiction Hu|].
      simpl in E. injection E as <- E.
      simpl in Hc. apply andb_prop in Hc as [Ha Hc].
      simpl. rewrite Nat.add_succ_r.
      apply (max_repeat_none s (S n) (S pos) (Hnone Ha) u v E Hc).
      simpl. lia. }
    destruct (category_mem c a) eqn:Ha.
    + destruct (max_repeat c min k (S n) (S pos) s m) as [r'|] eqn:Hin.
      * injection H as ->.
        destruct (IH _ _ Hin) as (w & s2 & -> & Hw & Hmin & Hk & Hl).
        exists (a :: w), s2. simpl. rewrite Ha, Hw.
        rewrite !Nat.add_succ_r. simpl in *.
        splits; auto.
      * apply Hstop; auto.
    + apply Hstop; [assumption | discriminate].
Qed.

End MaxRepeat.

(** ** The pattern, piece by piece *)

Lemma version_re_pieces :
  version_re
  = AT_BEGINNING :: literals "#define"
    ++ MAX_REPEAT 1 CATEGORY_SPACE :: MAX_REPEAT 1 CATEGORY_WORD :: name_pat.
Proof. reflexivity. Qed.

Lemma run_at_beginning pat s m :
  run (AT_BEGINNING :: pat) 0 s m = run pat 0 s m.
Proof. reflexivity. Qed.

Lemma run_literal a pat pos b s m :
  run (LITERAL a :: pat) pos (b :: s) m
  = if Ascii.eqb b a then run pat (S pos) s m else None.
Proof. reflexivity. Qed.

Lemma run_literal_nil a pat pos m : run (LITERAL a :: pat) pos [] m = None.
Proof. reflexivity. Qed.

Lemma run_max_repeat min c pat pos s m :
  run (MAX_REPEAT min c :: pat) pos s m = max_repeat c min (run pat) 0 pos s m.
Proof. reflexivity. Qed.

Lemma run_mark i pat pos s m :
  run (MARK i :: pat) pos s m = run pat pos s ((i, pos) :: m).
Proof. reflexivity. Qed.

Lemma run_literals (l : text) pat s : forall pos m,
  run (map LITERAL l ++ pat) pos (l ++ s) m = run pat (pos + length l) s m.
Proof.
  induction l as [|a l IH]; intros pos m; simpl.
  - now rewrite Nat.add_0_r.
  - rewrite Ascii.eqb_refl, IH. now rewrite Nat.add_succ_r.
Qed.

Lemma run_literals_inv (l : text) pat r : forall pos s m,
  run (map LITERAL l ++ pat) pos s m = Some r ->
  exists s', s = l ++ s' /\ run pat (pos + length l) s' m = Some r.
Proof.
  induction l as [|a l IH]; intros pos s m H; simpl in *.
  - exists s. now rewrite Nat.add_0_r.
  - destruct s as [|b s]; [discriminate|].
    destruct (Ascii.eqb b a) eqn:E; [|discriminate].
    apply Ascii.eqb_eq in E as ->.
    destruct (IH _ _ _ H) as (s' & -> & Hr).
    exists s'. now rewrite Nat.add_succ_r.
Qed.

(** The end of the group: mark 1, then the closing double quote. *)
Lemma run_close pos s m :
  run [MARK 1; LITERAL dquote] pos s m
  = match s with
    | a :: _ => if Ascii.eqb a dquote then Some ((1, pos) :: m) else None
    | [] => None
    end.
Proof. destruct s as [|a s]; reflexivity. Qed.

Lemma closes_app u v :
  all_in ANY u = true -> closes (u ++ dquote :: v) = true.
Proof.
  induction u as [|a u IH]; simpl; intros H; [reflexivity|].
  apply andb_prop in H as [Ha Hu].
  apply negb_true_iff in Ha. rewrite Ha.
  destruct (Ascii.eqb a dquote); auto.
Qed.

Lemma closes_split t :
  closes t = true ->
  exists u v, t = u ++ dquote :: v /\ all_in ANY u = true.
Proof.
  induction t as [|a t IH]; simpl; intros H; [discriminate|].
  destruct (Ascii.eqb a newline) eqn:En; [discriminate|].
  destruct (Ascii.eqb a dquote) eqn:Eq.
  - apply Ascii.eqb_eq in Eq as ->. now exists [], t.
  - destruct (IH H) as (u & v & -> & Hu).
    exists (a :: u), v. simpl. now rewrite En, Hu.
Qed.

(** After the last double quote of the line nothing longer can match. *)
Lemma group_longer_fail pos tail m :
  closes tail = false ->
  longer_fail ANY (run [MARK 1; LITERAL dquote]) m pos (dquote :: tail).
Proof.
  intros Hc u v E Hu Hall. rewrite run_close.
  destruct v as [|a v]; [reflexivity|].
  destruct (Ascii.eqb a dquote) eqn:Eq; [|reflexivity].
  apply Ascii.eqb_eq in Eq as ->.
  destruct u as [|b u]; [now contradiction Hu|].
  simpl in E. injection E as <- ->.
  simpl in Hall. rewrite closes_app in Hc; [discriminate|assumption].
Qed.

Lemma run_group_some body tail p m :
  all_in ANY body = true -> closes tail = false ->
  run group_pat p (dquote :: body ++ dquote :: tail) m
  = Some (group_marks (S p) (length body) m).
Proof.
  intros Hb Hc. unfold group_pat, group_marks.
  rewrite run_literal, Ascii.eqb_refl, run_mark, run_max_repeat.
  apply max_repeat_greedy; try assumption.
  - now apply group_longer_fail.
  - lia.
  - rewrite run_close. cbn. reflexivity.
Qed.

Lemma run_group_inv value p m r :
  run group_pat p value m = Some r ->
  exists body tail,
    value = dquote :: body ++ dquote :: tail /\
    all_in ANY body = true /\ closes tail = false /\
    r = group_marks (S p) (length body) m.
Proof.
  unfold group_pat, group_marks. intros H.
  destruct value as [|a value]; [discriminate|].
  rewrite run_literal in H.
  destruct (Ascii.eqb a dquote) eqn:Eq; [|discriminate].
  apply Ascii.eqb_eq in Eq as ->.
  rewrite run_mark, run_max_repeat in H.
  apply max_repeat_inv in H as (body & s2 & -> & Hb & _ & Hk & Hl).
  rewrite run_close in Hk.
  destruct s2 as [|b tail]; [discriminate|].
  destruct (Ascii.eqb b dquote) eqn:Eq; [|discriminate].
  apply Ascii.eqb_eq in Eq as ->. injection Hk as <-.
  exists body, tail. splits; auto.
  destruct (closes tail) eqn:Hc; [|reflexivity].
  destruct (closes_split _ Hc) as (u & v & -> & Hu).
  specialize (Hl (dquote :: u) (dquote :: v) eq_refl).
  rewrite run_close in Hl. cbn in Hl.
  discriminate Hl; [discriminate | exact Hu].
Qed.

Lemma enclosed_shape body tail :
  all_in ANY body = true -> enclosed (dquote :: body ++ dquote :: tail) = true.
Proof. intros H. simpl. now apply closes_app. Qed.

Lemma run_group_none value p m :
  enclosed value = false -> run group_pat p value m = None.
Proof.
  intros He. destruct (run group_pat p value m) as [r|] eqn:H; [|reflexivity].
  apply run_group_inv in H as (body & tail & -> & Hb & _).
  now rewrite enclosed_shape in He.
Qed.

(** ** The directive and the name *)

Lemma some_in_inv c w :
  some_in c w = true ->
  all_in c w = true /\ 1 <= length w /\ starts_in c w = true.
Proof.
  destruct w as [|a w]; simpl; [discriminate|].
  intros H. splits; auto; [lia|].
  now apply andb_prop in H as [Ha _].
Qed.

Lemma some_in_intro c w :
  all_in c w = true -> 1 <= length w -> some_in c w = true.
Proof. destruct w; simpl; [lia|auto]. Qed.

Lemma starts_in_app c w s :
  w <> [] -> starts_in c (w ++ s) = starts_in c w.
Proof. destruct w; [congruence|reflexivity]. Qed.

Lemma starts_word_not_space s :
  starts_in CATEGORY_WORD s = true -> starts_in CATEGORY_SPACE s = false.
Proof. destruct s; simpl; [reflexivity|apply word_not_space]. Qed.

Lemma repeat1_fail c k pos s m :
  starts_in c s = false -> max_repeat c 1 k 0 pos s m = None.
Proof. destruct s as [|a s]; simpl; [reflexivity|now intros ->]. Qed.

Lemma longer_fail_not_start c k m pos s :
  starts_in c s = false -> longer_fail c k m pos s.
Proof.
  intros H u v -> Hu Hall.
  destruct u as [|a u]; [now contradiction Hu|].
  simpl in *. apply andb_prop in Hall as [Ha _]. congruence.
Qed.

Lemma shorter_fail_class c k m pos w s :
  all_in c w = true ->
  (forall p t, starts_in c t = true -> k p t m = None) ->
  shorter_fail k m pos w s.
Proof.
  intros Hw Hk w1 w2 -> Hw2. apply Hk.
  rewrite all_in_app in Hw. apply andb_prop in Hw as [_ Hw].
  destruct w2 as [|a w2]; [now contradiction Hw2|].
  simpl in *. now apply andb_prop in Hw as [Ha _].
Qed.

Lemma group_pat_start p s m :
  starts_in CATEGORY_SPACE s = true -> run group_pat p s m = None.
Proof.
  destruct s as [|a s]; simpl; [discriminate|]. intros Ha.
  destruct (Ascii.eqb a dquote) eqn:E; [|reflexivity].
  apply Ascii.eqb_eq in E as ->. discriminate.
Qed.

(** The rest of the pattern after [\w+] matches only at [_VERSION]
    followed by white space. *)
Lemma name_pat_Some pos s m r :
  run name_pat pos s m = Some r ->
  exists sp s', s = lit "_VERSION" ++ sp :: s' /\ is_space sp = true.
Proof.
  unfold name_pat, literals. intros H.
  apply run_literals_inv in H as (s1 & -> & H).
  rewrite run_max_repeat in H.
  apply max_repeat_inv in H as (w & s2 & -> & Hw & Hmin & _).
  destruct w as [|sp w]; [simpl in Hmin; lia|].
  simpl in Hw. apply andb_prop in Hw as [Hsp _].
  now exists sp, (w ++ s2).
Qed.

Lemma word_at_8 x y b z :
  all_in CATEGORY_WORD x = true -> 9 <= length x ->
  x ++ y = lit "_VERSION" ++ b :: z -> is_word b = true.
Proof.
  intros Hx Hlen E.
  assert (Hn : nth_error (x ++ y) 8 = Some b) by now rewrite E.
  rewrite nth_error_app1 in Hn by lia.
  apply nth_error_In in Hn.
  exact (all_in_In _ _ _ Hx Hn).
Qed.

Lemma name_pat_word_run pos x y m :
  all_in CATEGORY_WORD x = true -> 9 <= length x ->
  run name_pat pos (x ++ y) m = None.
Proof.
  intros Hx Hlen.
  destruct (run name_pat pos (x ++ y) m) as [r|] eqn:H; [|reflexivity].
  apply name_pat_Some in H as (sp & s' & E & Hsp).
  apply (word_at_8 _ _ _ _ Hx Hlen) in E.
  apply space_not_word in Hsp. congruence.
Qed.

Lemma all_word_VERSION : all_in CATEGORY_WORD (lit "_VERSION") = true.
Proof. reflexivity. Qed.

Lemma define_line_app ws1 id ws2 value :
  define_line ws1 id ws2 value = define_line ws1 id ws2 [] ++ value.
Proof.
  unfold define_line. now rewrite app_nil_r, <- !app_assoc.
Qed.

Lemma define_line_length ws1 id ws2 :
  length (define_line ws1 id ws2 [])
  = 7 + length ws1 + length id + 8 + length ws2.
Proof.
  unfold define_line. rewrite !length_app. simpl. lia.
Qed.

(** On a line of that shape the match comes down to the quoted group. *)
Lemma run_define_line ws1 id ws2 value :
  some_in CATEGORY_SPACE ws1 = true ->
  some_in CATEGORY_WORD id = true ->
  some_in CATEGORY_SPACE ws2 = true ->
  starts_in CATEGORY_SPACE value = false ->
  run version_re 0 (define_line ws1 id ws2 value) []
  = run group_pat (length (define_line ws1 id ws2 [])) value [].
Proof.
  intros H1 Hid H2 Hv.
  apply some_in_inv in H1 as (Hs1 & Hl1 & _).
  apply some_in_inv in Hid as (Hw & Hlw & Hstart).
  apply some_in_inv in H2 as (Hs2 & Hl2 & Hsp2).
  rewrite define_line_length. unfold define_line.
  rewrite version_re_pieces, run_at_beginning.
  unfold literals at 1. rewrite run_literals, run_max_repeat.
  rewrite max_repeat_unique; try assumption; try lia.
  - rewrite run_max_repeat.
    rewrite max_repeat_unique; try assumption; try lia.
    + unfold name_pat, literals. rewrite run_literals, run_max_repeat.
      rewrite max_repeat_unique; try assumption; try lia.
      * f_equal; simpl; lia.
      * now apply longer_fail_not_start.
      * apply (shorter_fail_class CATEGORY_SPACE); [assumption|].
        intros p t Ht. now apply group_pat_start.
    + intros u v E Hu Hall.
      destruct (run name_pat _ v []) as [r|] eqn:Hr; [|reflexivity].
      apply name_pat_Some in Hr as (sp & s' & -> & Hsp).
      destruct ws2 as [|b ws2]; [discriminate|].
      assert (Hb : is_word b = true).
      { apply (word_at_8 (u ++ lit "_VERSION") (sp :: s') b (ws2 ++ value)).
        - now rewrite all_in_app, Hall.
        - rewrite length_app. simpl. destruct u; [congruence|simpl; lia].
        - rewrite <- app_assoc. now rewrite <- E. }
      simpl in Hsp2. apply space_not_word in Hsp2. congruence.
    + intros w1 w2 -> Hw2.
      rewrite all_in_app in Hw. apply andb_prop in Hw as [_ Hw].
      rewrite app_assoc. apply name_pat_word_run.
      * now rewrite all_in_app, Hw.
      * rewrite length_app. simpl. destruct w2; [congruence|simpl; lia].
  - apply longer_fail_not_start.
    rewrite starts_in_app by (destruct id; [discriminate|discriminate]).
    now apply starts_word_not_space.
  - apply (shorter_fail_class CATEGORY_SPACE); [assumption|].
    intros p t Ht. rewrite run_max_repeat. apply repeat1_fail.
    destruct t as [|a t]; [reflexivity|]. simpl in *.
    now apply space_not_word.
Qed.

(** Every match comes from a line of that shape. *)
Lemma run_version_re_inv ln r :
  run version_re 0 ln [] = Some r ->
  exists ws1 id ws2 value,
    ln = define_line ws1 id ws2 value /\
    some_in CATEGORY_SPACE ws1 = true /\
    some_in CATEGORY_WORD id = true /\
    some_in CATEGORY_SPACE ws2 = true /\
    run group_pat (length (define_line ws1 id ws2 [])) value [] = Some r.
Proof.
  rewrite version_re_pieces, run_at_beginning. unfold literals at 1.
  intros H.
  apply run_literals_inv in H as (s1 & -> & H).
  rewrite run_max_repeat in H.
  apply max_repeat_inv in H as (ws1 & s2 & -> & Hs1 & Hl1 & H & _).
  rewrite run_max_repeat in H.
  apply max_repeat_inv in H as (id & s3 & -> & Hw & Hlw & H & _).
  unfold name_pat, literals in H.
  apply run_literals_inv in H as (s4 & -> & H).
  rewrite run_max_repeat in H.
  apply max_repeat_inv in H as (ws2 & value & -> & Hs2 & Hl2 & H & _).
  exists ws1, id, ws2, value.
  splits; try (apply some_in_intro; [assumption|lia]).
  - reflexivity.
  - rewrite define_line_length. rewrite <- H. f_equal; simpl; lia.
Qed.

(** ** One line *)

Lemma firstn_length_app (body rest : text) :
  firstn (length body) (body ++ rest) = body.
Proof. induction body; simpl; congruence. Qed.

Lemma slice_mid (pre : text) a body rest :
  slice (pre ++ a :: body ++ rest)
        (S (length pre)) (S (length pre) + length body) = body.
Proof.
  unfold slice.
  replace (S (length pre) + length body - S (length pre)) with (length body)
    by lia.
  induction pre as [|b pre IH]; simpl.
  - apply firstn_length_app.
  - exact IH.
Qed.

Lemma quoted_app body tail :
  quoted body ++ tail = dquote :: body ++ dquote :: tail.
Proof. unfold quoted. simpl. now rewrite <- app_assoc. Qed.

Lemma version_of_run ln :
  version_of ln
  = option_map (fun m => group (MatchObject ln m) 1) (run version_re 0 ln []).
Proof.
  unfold version_of, re_match. now destruct (run version_re 0 ln []).
Qed.

Lemma no_match_version_of ln : no_match ln = true <-> version_of ln = None.
Proof.
  unfold no_match, version_of.
  destruct (re_match version_re ln); simpl; split; congruence.
Qed.

Lemma group_1_marks ln p n :
  group (MatchObject ln (group_marks p n [])) 1 = PyStr (slice ln p (p + n)).
Proof. reflexivity. Qed.

(** A well-formed definition gives the text between the opening double
    quote and the last double quote of the line. *)
Lemma version_of_quoted ws1 id ws2 body tail :
  some_in CATEGORY_SPACE ws1 = true ->
  some_in CATEGORY_WORD id = true ->
  some_in CATEGORY_SPACE ws2 = true ->
  all_in ANY body = true ->
  closes tail = false ->
  version_of (define_line ws1 id ws2 (quoted body ++ tail))
  = Some (PyStr body).
Proof.
  intros H1 Hid H2 Hb Hc.
  rewrite version_of_run, quoted_app, run_define_line by auto.
  rewrite run_group_some by assumption. simpl option_map.
  rewrite group_1_marks, define_line_app. f_equal. f_equal.
  apply slice_mid.
Qed.

Lemma version_of_inv ln v :
  version_of ln = Some v ->
  exists ws1 id ws2 body tail,
    ln = define_line ws1 id ws2 (quoted body ++ tail) /\
    some_in CATEGORY_SPACE ws1 = true /\
    some_in CATEGORY_WORD id = true /\
    some_in CATEGORY_SPACE ws2 = true /\
    all_in ANY body = true /\
    closes tail = false /\
    v = PyStr body.
Proof.
  rewrite version_of_run.
  destruct (run version_re 0 ln []) as [r|] eqn:H; [|discriminate].
  cbn [option_map]. intros [= <-].
  apply run_version_re_inv in H
    as (ws1 & id & ws2 & value & -> & H1 & Hid & H2 & H).
  apply run_group_inv in H as (body & tail & -> & Hb & Hc & ->).
  exists ws1, id, ws2, body, tail. rewrite quoted_app.
  splits; auto.
  rewrite group_1_marks, define_line_app. f_equal.
  apply slice_mid.
Qed.

(** A definition whose value is not enclosed in double quotes does not
    match. *)
Lemma version_of_unquoted ws1 id ws2 value :
  some_in CATEGORY_SPACE ws1 = true ->
  some_in CATEGORY_WORD id = true ->
  some_in CATEGORY_SPACE ws2 = true ->
  starts_in CATEGORY_SPACE value = false ->
  enclosed value = false ->
  version_of (define_line ws1 id ws2 value) = None.
Proof.
  intros H1 Hid H2 Hv He.
  rewrite version_of_run, run_define_line by assumption.
  now rewrite run_group_none.
Qed.

(** The pattern is anchored: a line that does not begin with the number
    sign does not match. *)
Lemma version_of_anchor a rest :
  Ascii.eqb a "#"%char = false -> version_of (a :: rest) = None.
Proof.
  intros Ha. rewrite version_of_run, version_re_pieces, run_at_beginning.
  unfold literals. simpl map. simpl app. rewrite run_literal.
  now rewrite Ha.
Qed.

Lemma closes_no_dquote tail :
  existsb (Ascii.eqb dquote) tail = false -> closes tail = false.
Proof.
  induction tail as [|a tail IH]; cbn [existsb closes]; [reflexivity|].
  intros H. apply orb_false_elim in H as [Ha Ht].
  rewrite Ascii.eqb_sym in Ha. rewrite Ha, IH by assumption.
  now destruct (Ascii.eqb a newline).
Qed.

(** ** The loop over the lines *)

Lemma for_lines_cons ln rest :
  for_lines (ln :: rest)
  = match version_of ln with
    | Some v => Some v
    | None => for_lines rest
    end.
Proof.
  unfold version_of. simpl. now destruct (re_match version_re ln).
Qed.

Lemma for_lines_skip pre lines :
  forallb no_match pre = true -> for_lines (pre ++ lines) = for_lines lines.
Proof.
  induction pre as [|l pre IH]; simpl app; intros H; [reflexivity|].
  simpl in H. apply andb_prop in H as [Hl Hpre].
  apply no_match_version_of in Hl.
  now rewrite for_lines_cons, Hl, IH.
Qed.

Lemma for_lines_none lines :
  forallb no_match lines = true -> for_lines lines = None.
Proof.
  intros H. rewrite <- (app_nil_r lines). now rewrite for_lines_skip.
Qed.

Lemma for_lines_first pre ln post v :
  forallb no_match pre = true -> version_of ln = Some v ->
  for_lines (pre ++ ln :: post) = Some v.
Proof.
  intros Hpre Hv. now rewrite for_lines_skip, for_lines_cons, Hv.
Qed.

Lemma for_lines_drop pre ln post :
  no_match ln = true ->
  for_lines (pre ++ ln :: post) = for_lines (pre ++ post).
Proof.
  intros Hl. apply no_match_version_of in Hl.
  induction pre as [|l pre IH]; simpl app.
  - now rewrite for_lines_cons, Hl.
  - now rewrite !for_lines_cons, IH.
Qed.

Lemma for_lines_str lines v :
  for_lines lines = Some v -> exists s, v = PyStr s.
Proof.
  induction lines as [|ln lines IH]; [discriminate|].
  rewrite for_lines_cons.
  destruct (version_of ln) as [v'|] eqn:Hv; [|exact IH].
  intros [= <-].
  apply version_of_inv in Hv as (_ & _ & _ & body & _ & _ & _ & _ & _ & _ & _ & ->).
  now exists body.
Qed.

Lemma parse_open fs fname content :
  fs fname = Some (Text content) ->
  parse_build_version fs fname
  = match for_lines (readlines content) with
    | Some v => Return v
    | None => Return (PyStr default_version)
    end.
Proof.
  intros H. unfold parse_build_version, open_. rewrite H. simpl.
  now destruct (for_lines (readlines content)).
Qed.

(** * The properties of the extractor *)

(** C1: when the first line of the file that matches the version pattern
    is the definition of FOO_VERSION as the quoted 2.3.1, with or without
    its end of line, [parse_build_version] returns the string 2.3.1, the
    quoted content without the quotes. *)
Theorem first_match_2_3_1 fs fname content pre eol post :
  fs fname = Some (Text content) ->
  readlines content = pre ++ (foo_version_line ++ eol) :: post ->
  forallb no_match pre = true ->
  eol = [] \/ eol = [newline] ->
  parse_build_version fs fname = Return (PyStr (lit "2.3.1")).
Proof.
  intros Hopen Hlines Hpre Heol.
  rewrite (parse_open _ _ _ Hopen), Hlines.
  rewrite (for_lines_first pre _ post (PyStr (lit "2.3.1"))); auto.
  destruct Heol as [-> | ->]; reflexivity.
Qed.

Lemma first_match_2_3_1_witness :
  parse_build_version
    (single_file "evfs_build_config.h"
       (unlines [comment_line; foo_version_line; bar_version_line]))
    "evfs_build_config.h"
  = Return (PyStr (lit "2.3.1")).
Proof.
  apply (first_match_2_3_1 _ _
           (unlines [comment_line; foo_version_line; bar_version_line])
           [comment_line ++ [newline]] [newline]
           [bar_version_line ++ [newline]]).
  - reflexivity.
  - reflexivity.
  - reflexivity.
  - right. reflexivity.
Defined.

(** C2: for a file that can be read and has no line matching the version
    pattern, [parse_build_version] returns the default 1.0.0; the empty
    file is such a file. *)
Theorem no_match_default :
  (forall fs fname content,
      fs fname = Some (Text content) ->
      forallb no_match (readlines content) = true ->
      parse_build_version fs fname = Return (PyStr (lit "1.0.0")))
  /\ (forall fs fname,
      fs fname = Some (Text []) ->
      parse_build_version fs fname = Return (PyStr (lit "1.0.0"))).
Proof.
  assert (H : forall fs fname content,
             fs fname = Some (Text content) ->
             forallb no_match (readlines content) = true ->
             parse_build_version fs fname = Return (PyStr (lit "1.0.0"))).
  { intros fs fname content Hopen Hnone.
    now rewrite (parse_open _ _ _ Hopen), for_lines_none. }
  split; [exact H|].
  intros fs fname Hopen. now apply (H fs fname []).
Qed.

Lemma no_match_default_witness :
  parse_build_version
    (single_file "a.h" (unlines [comment_line; unquoted_line])) "a.h"
  = Return (PyStr (lit "1.0.0"))
  /\ parse_build_version (single_file "empty.h" []) "empty.h"
     = Return (PyStr (lit "1.0.0")).
Proof.
  split.
  - apply (proj1 no_match_default _ _
             (unlines [comment_line; unquoted_line])); reflexivity.
  - apply (proj2 no_match_default); reflexivity.
Defined.

(** C3, as the code has it: the pattern is anchored at the first character
    of the line and takes no white space before the directive, so a line
    that begins with one or more white-space characters does not match,
    whatever follows; the loop passes over it, and a file whose other lines
    do not match either gives the default. *)
Theorem leading_whitespace_no_match ws defn :
  some_in CATEGORY_SPACE ws = true ->
  no_match (ws ++ defn) = true
  /\ (forall pre post,
        for_lines (pre ++ (ws ++ defn) :: post) = for_lines (pre ++ post))
  /\ (forall fs fname content pre post,
        fs fname = Some (Text content) ->
        readlines content = pre ++ (ws ++ defn) :: post ->
        forallb no_match (pre ++ post) = true ->
        parse_build_version fs fname = Return (PyStr (lit "1.0.0"))).
Proof.
  intros Hws.
  assert (Hno : no_match (ws ++ defn) = true).
  { apply no_match_version_of.
    destruct ws as [|a ws]; [discriminate|].
    simpl in Hws. apply andb_prop in Hws as [Ha _].
    apply version_of_anchor.
    destruct (Ascii.eqb a "#"%char) eqn:E; [|reflexivity].
    apply Ascii.eqb_eq in E as ->. discriminate. }
  splits; [assumption| |].
  - intros pre post. now apply for_lines_drop.
  - intros fs fname content pre post Hopen Hlines Hnone.
    rewrite (parse_open _ _ _ Hopen), Hlines.
    now rewrite for_lines_drop, for_lines_none.
Qed.

Lemma leading_whitespace_no_match_witness :
  no_match (indented_line ++ [newline]) = true
  /\ parse_build_version
       (single_file "a.h" (unlines [comment_line; indented_line])) "a.h"
     = Return (PyStr (lit "1.0.0")).
Proof.
  destruct (leading_whitespace_no_match
              (lit "  ") (foo_version_line ++ [newline]) eq_refl)
    as (Hno & _ & Hfile).
  split; [exact Hno|].
  apply (Hfile _ _ (unlines [comment_line; indented_line])
           [comment_line ++ [newline]] []); reflexivity.
Defined.

(** C3 as stated fails: the indented definition of FOO_VERSION is not
    matched, and the file made of it yields the default, not 2.3.1. *)
Lemma leading_whitespace_counterexample :
  no_match indented_line = true
  /\ parse_build_version (single_file "a.h" (unlines [indented_line])) "a.h"
     = Return (PyStr (lit "1.0.0"))
  /\ parse_build_version (single_file "a.h" (unlines [indented_line])) "a.h"
     <> Return (PyStr (lit "2.3.1")).
Proof.
  splits; [reflexivity | reflexivity | discriminate].
Qed.




(** C5, as the code has it: a line matches exactly when it begins with the
    directive, one or more white-space characters, one or more word
    characters followed by [_VERSION], one or more white-space characters,
    a double quote, a text without newline and a double quote after which
    no further double quote comes on the line (anything else may follow);
    the result is the text between these two quotes.  The name needs at
    least one word character before [_VERSION], and every name made of
    word characters that way is accepted. *)
Theorem version_line_shape ln v :
  version_of ln = Some v <->
  exists ws1 id ws2 body tail,
    ln = define_line ws1 id ws2 (quoted body ++ tail) /\
    some_in CATEGORY_SPACE ws1 = true /\
    some_in CATEGORY_WORD id = true /\
    some_in CATEGORY_SPACE ws2 = true /\
    all_in ANY body = true /\
    closes tail = false /\
    v = PyStr body.
Proof.
  split.
  - apply version_of_inv.
  - intros (ws1 & id & ws2 & body & tail & -> & H1 & Hid & H2 & Hb & Hc & ->).
    now apply version_of_quoted.
Qed.

(** C5 as stated fails: [_VERSION] alone is an identifier ending in
    [_VERSION], yet its definition with a quoted literal does not match. *)
Lemma bare_name_counterexample :
  c_identifier (lit "_VERSION") = true
  /\ bare_name_line = lit "#define " ++ lit "_VERSION" ++ lit " "
                      ++ quoted (lit "2.3.1")
  /\ version_of bare_name_line = None
  /\ parse_build_version (single_file "a.h" (unlines [bare_name_line])) "a.h"
     = Return (PyStr (lit "1.0.0")).
Proof. splits; reflexivity. Qed.

(** C6: a definition whose value is not enclosed in double quotes (it does
    not open with a double quote that another one closes on the line) does
    not match; the loop goes on with the other lines, and when none of
    them matches the default is returned. *)
Theorem unquoted_value_skipped ws1 id ws2 value :
  some_in CATEGORY_SPACE ws1 = true ->
  some_in CATEGORY_WORD id = true ->
  some_in CATEGORY_SPACE ws2 = true ->
  starts_in CATEGORY_SPACE value = false ->
  enclosed value = false ->
  no_match (define_line ws1 id ws2 value) = true
  /\ (forall pre post,
        for_lines (pre ++ define_line ws1 id ws2 value :: post)
        = for_lines (pre ++ post))
  /\ (forall fs fname content pre post,
        fs fname = Some (Text content) ->
        readlines content = pre ++ define_line ws1 id ws2 value :: post ->
        forallb no_match (pre ++ post) = true ->
        parse_build_version fs fname = Return (PyStr (lit "1.0.0"))).
Proof.
  intros H1 Hid H2 Hv He.
  assert (Hno : no_match (define_line ws1 id ws2 value) = true).
  { apply no_match_version_of. now apply version_of_unquoted. }
  splits; [assumption| |].
  - intros pre post. now apply for_lines_drop.
  - intros fs fname content pre post Hopen Hlines Hnone.
    rewrite (parse_open _ _ _ Hopen), Hlines.
    now rewrite for_lines_drop, for_lines_none.
Qed.

Lemma unquoted_value_skipped_witness :
  no_match (unquoted_line ++ [newline]) = true
  /\ parse_build_version
       (single_file "a.h" (unlines [unquoted_line; comment_line])) "a.h"
     = Return (PyStr (lit "1.0.0"))
  /\ for_lines [unquoted_line ++ [newline]; foo_version_line]
     = for_lines [foo_version_line].
Proof.
  destruct (unquoted_value_skipped
              (lit " ") (lit "FOO") (lit " ") (lit "2.3.1" ++ [newline])
              eq_refl eq_refl eq_refl eq_refl eq_refl)
    as (Hno & Hdrop & Hfile).
  splits.
  - exact Hno.
  - apply (Hfile _ _ (unlines [unquoted_line; comment_line])
             [] [comment_line ++ [newline]]); reflexivity.
  - exact (Hdrop [] [foo_version_line]).
Defined.

(** C7: when the file cannot be opened, [parse_build_version] does not
    return the default: the error of [open] comes out of it unhandled, and
    the module that calls it for the build configuration header fails with
    that error. *)
Theorem open_failure_propagates fs fname :
  fs fname = None ->
  parse_build_version fs fname = Raise (OSError fname)
  /\ parse_build_version fs fname <> Return (PyStr (lit "1.0.0"))
  /\ (fname = build_config_h ->
      forall enc, conf enc fs = Raise (OSError fname)).
Proof.
  intros Hopen.
  assert (H : parse_build_version fs fname = Raise (OSError fname)).
  { unfold parse_build_version, open_. now rewrite Hopen. }
  splits.
  - exact H.
  - rewrite H. discriminate.
  - intros -> enc. unfold conf. now rewrite H.
Qed.

Lemma open_failure_propagates_witness :
  parse_build_version (single_file "a.h" []) build_config_h
  = Raise (OSError build_config_h)
  /\ conf ascii_stdout (single_file "a.h" [])
     = Raise (OSError build_config_h).
Proof.
  destruct (open_failure_propagates (single_file "a.h" []) build_config_h
              eq_refl) as (H & _ & Hconf).
  split; [exact H | exact (Hconf eq_refl ascii_stdout)].
Defined.

(** C8: the group is greedy.  On a matching line with several double
    quotes after the name, the result runs from the first double quote to
    the last one of the line, embedded quotes included: with [mid] any text
    without newline and [tail] a rest of line without double quote, the
    value of the line is [mid], and [parse_build_version] returns [mid]
    for a file whose first matching line it is; for the two literals 1.0
    and 2.0 side by side it is the text from 1.0 to 2.0 with the two
    quotes in between. *)
Theorem greedy_group ws1 id ws2 mid tail :
  some_in CATEGORY_SPACE ws1 = true ->
  some_in CATEGORY_WORD id = true ->
  some_in CATEGORY_SPACE ws2 = true ->
  all_in ANY mid = true ->
  existsb (Ascii.eqb dquote) tail = false ->
  version_of (define_line ws1 id ws2 (quoted mid ++ tail)) = Some (PyStr mid)
  /\ (forall fs fname content pre post,
        fs fname = Some (Text content) ->
        readlines content
        = pre ++ define_line ws1 id ws2 (quoted mid ++ tail) :: post ->
        forallb no_match pre = true ->
        parse_build_version fs fname = Return (PyStr mid)).
Proof.
  intros H1 Hid H2 Hmid Htail.
  assert (Hv : version_of (define_line ws1 id ws2 (quoted mid ++ tail))
               = Some (PyStr mid)).
  { apply version_of_quoted; try assumption. now apply closes_no_dquote. }
  split; [exact Hv|].
  intros fs fname content pre post Hopen Hlines Hpre.
  rewrite (parse_open _ _ _ Hopen), Hlines.
  now rewrite (for_lines_first pre _ post (PyStr mid)).
Qed.

Lemma greedy_group_witness :
  existsb (Ascii.eqb dquote) two_literals = true
  /\ version_of (lit "#define FOO_VERSION " ++ quoted (lit "1.0") ++ lit " "
                 ++ quoted (lit "2.0") ++ [newline])
     = Some (PyStr two_literals)
  /\ parse_build_version
       (single_file "a.h"
          (unlines [comment_line; two_literals_line; foo_version_line]))
       "a.h"
     = Return (PyStr two_literals).
Proof.
  destruct (greedy_group (lit " ") (lit "FOO") (lit " ") two_literals
              [newline] eq_refl eq_refl eq_refl eq_refl eq_refl)
    as (Hline & Hfile).
  splits.
  - reflexivity.
  - exact Hline.
  - apply (Hfile
             (single_file "a.h"
                (unlines [comment_line; two_literals_line; foo_version_line]))
             "a.h"%string
             (unlines [comment_line; two_literals_line; foo_version_line])
             [comment_line ++ [newline]] [foo_version_line ++ [newline]]).
    + reflexivity.
    + vm_compute. reflexivity.
    + reflexivity.
Defined.

(** C9: for a file that can be read, [parse_build_version] returns, and
    what it returns is a string: the group of a match or the default,
    never [None]. *)
Theorem returns_string fs fname content :
  fs fname = Some (Text content) ->
  exists s, parse_build_version fs fname = Return (PyStr s).
Proof.
  intros Hopen. rewrite (parse_open _ _ _ Hopen).
  destruct (for_lines (readlines content)) as [v|] eqn:H.
  - destruct (for_lines_str _ _ H) as (s & ->). now exists s.
  - now exists default_version.
Qed.

Lemma returns_string_witness :
  exists s,
    parse_build_version
      (single_file "a.h" (unlines [comment_line; foo_version_line])) "a.h"
    = Return (PyStr s).
Proof.
  apply (returns_string _ _ (unlines [comment_line; foo_version_line])).
  reflexivity.
Defined.

(** C10: the result depends only on the sequence of lines read: two files,
    in any two file systems, whose lines are the same give the same
    result. *)
Theorem same_lines_same_result fs1 fname1 content1 fs2 fname2 content2 :
  fs1 fname1 = Some (Text content1) ->
  fs2 fname2 = Some (Text content2) ->
  readlines content1 = readlines content2 ->
  parse_build_version fs1 fname1 = parse_build_version fs2 fname2.
Proof.
  intros H1 H2 Hlines.
  now rewrite (parse_open _ _ _ H1), (parse_open _ _ _ H2), Hlines.
Qed.

Lemma same_lines_same_result_witness :
  unlines [comment_line; foo_version_line]
  <> unlines_crlf [comment_line; foo_version_line]
  /\ parse_build_version
       (single_file "unix.h" (unlines [comment_line; foo_version_line]))
       "unix.h"
     = parse_build_version
         (single_file "dos.h" (unlines_crlf [comment_line; foo_version_line]))
         "dos.h".
Proof.
  split; [discriminate|].
  apply (same_lines_same_result
           (single_file "unix.h" (unlines [comment_line; foo_version_line]))
           "unix.h" (unlines [comment_line; foo_version_line])
           (single_file "dos.h" (unlines_crlf [comment_line; foo_version_line]))
           "dos.h" (unlines_crlf [comment_line; foo_version_line])).
  - reflexivity.
  - reflexivity.
  - vm_compute. reflexivity.
Defined.

(** * Further properties *)

(** ** Reading the lines *)

Lemma un_cons_other a s :
  Ascii.eqb a carriage_return = false ->
  universal_newlines (a :: s) = a :: universal_newlines s.
Proof. intros H. simpl. now rewrite H. Qed.

Lemma un_cr_nl s :
  universal_newlines (carriage_return :: newline :: s)
  = newline :: universal_newlines s.
Proof. reflexivity. Qed.

Lemma un_cr_other b s :
  Ascii.eqb b newline = false ->
  universal_newlines (carriage_return :: b :: s)
  = newline :: universal_newlines (b :: s).
Proof.
  intros H.
  change (universal_newlines (carriage_return :: b :: s))
    with (newline :: (if Ascii.eqb b newline then universal_newlines s
                      else universal_newlines (b :: s))).
  now rewrite H.
Qed.

(** Induction along the cases of [universal_newlines]. *)
Lemma text_cr_ind (P : text -> Prop) :
  P [] ->
  (forall a s, Ascii.eqb a carriage_return = false -> P s -> P (a :: s)) ->
  P [carriage_return] ->
  (forall s, P s -> P (carriage_return :: newline :: s)) ->
  (forall b s, Ascii.eqb b newline = false -> P (b :: s) ->
               P (carriage_return :: b :: s)) ->
  forall s, P s.
Proof.
  intros Hnil Hother Hcr Hcrnl Hcrb s.
  assert (H : forall n s, length s <= n -> P s).
  { induction n as [|n IH]; intros t Hlen.
    - destruct t; [exact Hnil | simpl in Hlen; lia].
    - destruct t as [|a t]; [exact Hnil|].
      simpl in Hlen.
      destruct (Ascii.eqb a carriage_return) eqn:Ea.
      + apply Ascii.eqb_eq in Ea as ->.
        destruct t as [|b t]; [exact Hcr|].
        simpl in Hlen.
        destruct (Ascii.eqb b newline) eqn:Eb.
        * apply Ascii.eqb_eq in Eb as ->. apply Hcrnl, IH. lia.
        * apply Hcrb; [assumption|]. apply IH. simpl. lia.
      + apply Hother; [assumption|]. apply IH. lia. }
  now apply (H (length s)).
Qed.

Lemma un_no_cr s : ~ In carriage_return (universal_newlines s).
Proof.
  induction s as [|a s Ha IH| |s IH|b s Hb IH] using text_cr_ind.
  - simpl. tauto.
  - rewrite un_cons_other by assumption. intros [E|E]; [|tauto].
    subst a. discriminate.
  - intros [E|[]]. discriminate.
  - rewrite un_cr_nl. intros [E|E]; [discriminate|tauto].
  - rewrite un_cr_other by assumption. intros [E|E]; [discriminate|tauto].
Qed.

Lemma un_id s :
  existsb (Ascii.eqb carriage_return) s = false -> universal_newlines s = s.
Proof.
  induction s as [|a s IH]; [reflexivity|].
  cbn [existsb]. intros H. apply orb_false_elim in H as [Ha Hs].
  rewrite Ascii.eqb_sym in Ha.
  now rewrite un_cons_other, IH.
Qed.

Lemma splitlines_nl s :
  splitlines (newline :: s) = [newline] :: splitlines s.
Proof. reflexivity. Qed.

Lemma splitlines_other a s :
  Ascii.eqb a newline = false ->
  splitlines (a :: s)
  = match splitlines s with
    | [] => [[a]]
    | l :: ls => (a :: l) :: ls
    end.
Proof. intros H. simpl. now rewrite H. Qed.

Lemma concat_splitlines s : concat (splitlines s) = s.
Proof.
  induction s as [|a s IH]; [reflexivity|].
  destruct (Ascii.eqb a newline) eqn:Ea.
  - apply Ascii.eqb_eq in Ea as ->. rewrite splitlines_nl. simpl.
    now rewrite IH.
  - rewrite splitlines_other by assumption.
    destruct (splitlines s) as [|l ls]; simpl in *; now rewrite <- IH.
Qed.

Lemma splitlines_lines s : forallb is_line (splitlines s) = true.
Proof.
  induction s as [|a s IH]; [reflexivity|].
  destruct (Ascii.eqb a newline) eqn:Ea.
  - apply Ascii.eqb_eq in Ea as ->. rewrite splitlines_nl. exact IH.
  - rewrite splitlines_other by assumption.
    destruct (splitlines s) as [|l ls].
    + simpl. now rewrite Ea.
    + cbn [forallb] in *. apply andb_prop in IH as [Hl Hls].
      rewrite Hls, andb_true_r.
      destruct l as [|b l]; [discriminate|].
      cbn [is_line nl_last] in *. now rewrite Ea.
Qed.

Lemma readlines_In_line content ln :
  In ln (readlines content) -> is_line ln = true.
Proof.
  intros H. pose proof (splitlines_lines (universal_newlines content)) as Hall.
  rewrite forallb_forall in Hall. now apply Hall.
Qed.

Lemma readlines_In_no_cr content ln :
  In ln (readlines content) -> ~ In carriage_return ln.
Proof.
  intros Hln Hcr. apply (un_no_cr content).
  rewrite <- (concat_splitlines (universal_newlines content)).
  apply in_concat. now exists ln.
Qed.

(** X1: [readlines] loses no text: the lines put end to end are the file
    content with CR LF and lone CR read as LF, and the content itself when
    it holds no carriage return. *)
Theorem readlines_concat content :
  concat (readlines content) = universal_newlines content
  /\ (existsb (Ascii.eqb carriage_return) content = false ->
      concat (readlines content) = content).
Proof.
  unfold readlines. rewrite concat_splitlines. split; [reflexivity|].
  apply un_id.
Qed.

Lemma readlines_concat_witness :
  concat (readlines (unlines [comment_line; foo_version_line]))
  = unlines [comment_line; foo_version_line].
Proof.
  apply (proj2 (readlines_concat (unlines [comment_line; foo_version_line]))).
  reflexivity.
Defined.

(** X2: every line [readlines] gives is non-empty, has a newline at its
    end only, and holds no carriage return. *)
Theorem readlines_line_shape content :
  Forall (fun ln => ln <> [] /\ nl_last ln = true
                    /\ ~ In carriage_return ln)
         (readlines content).
Proof.
  apply Forall_forall. intros ln Hln.
  pose proof (readlines_In_line _ _ Hln) as Hline.
  splits.
  - now destruct ln.
  - now destruct ln.
  - now apply readlines_In_no_cr with content.
Qed.

(** ** What the result is made of *)

Lemma for_lines_some_inv lines v :
  for_lines lines = Some v ->
  exists l1 ln l2,
    lines = l1 ++ ln :: l2 /\ forallb no_match l1 = true
    /\ version_of ln = Some v.
Proof.
  induction lines as [|l lines IH]; [discriminate|].
  rewrite for_lines_cons.
  destruct (version_of l) as [v'|] eqn:Hl.
  - intros [= <-]. now exists [], l, lines.
  - intros H. destruct (IH H) as (l1 & ln & l2 & -> & Hl1 & Hv).
    exists (l :: l1), ln, l2. splits; auto.
    cbn [forallb]. rewrite Hl1, andb_true_r.
    now apply no_match_version_of.
Qed.

Lemma all_any_no_newline body :
  all_in ANY body = true -> ~ In newline body.
Proof.
  intros Hb Hin. pose proof (all_in_In _ _ _ Hb Hin) as H.
  discriminate H.
Qed.

Lemma define_line_In a ws1 id ws2 body tail :
  In a body -> In a (define_line ws1 id ws2 (quoted body ++ tail)).
Proof.
  intros H. rewrite define_line_app, quoted_app.
  apply in_or_app. right. right. apply in_or_app. now left.
Qed.

(** X3: for a file that can be read, the string returned holds no newline
    and no carriage return, whatever the line endings of the file. *)
Theorem result_has_no_line_break fs fname content :
  fs fname = Some (Text content) ->
  exists s,
    parse_build_version fs fname = Return (PyStr s)
    /\ ~ In newline s /\ ~ In carriage_return s.
Proof.
  intros Hopen. rewrite (parse_open _ _ _ Hopen).
  destruct (for_lines (readlines content)) as [v|] eqn:H.
  - apply for_lines_some_inv in H as (l1 & ln & l2 & Hlines & _ & Hv).
    apply version_of_inv in Hv
      as (ws1 & id & ws2 & body & tail & -> & _ & _ & _ & Hb & _ & ->).
    exists body. splits; [reflexivity | now apply all_any_no_newline |].
    intros Hcr.
    apply (readlines_In_no_cr content
             (define_line ws1 id ws2 (quoted body ++ tail))).
    + rewrite Hlines. apply in_or_app. right. now left.
    + now apply define_line_In.
  - exists default_version. splits; [reflexivity| |];
      intros Hin; simpl in Hin; intuition discriminate.
Qed.

Lemma result_has_no_line_break_witness :
  exists s,
    parse_build_version
      (single_file "dos.h" (unlines_crlf [comment_line; foo_version_line]))
      "dos.h"
    = Return (PyStr s)
    /\ ~ In newline s /\ ~ In carriage_return s.
Proof.
  apply (result_has_no_line_break
           (single_file "dos.h" (unlines_crlf [comment_line; foo_version_line]))
           "dos.h" (unlines_crlf [comment_line; foo_version_line])).
  reflexivity.
Defined.

(** X4: the extractor makes up no version: what it returns is the default,
    when no line matches, or a text that stands between two double quotes
    in the file as read. *)
Theorem result_comes_from_file fs fname content s :
  fs fname = Some (Text content) ->
  parse_build_version fs fname = Return (PyStr s) ->
  (forallb no_match (readlines content) = true /\ s = lit "1.0.0")
  \/ exists before after,
       universal_newlines content = before ++ quoted s ++ after.
Proof.
  intros Hopen. rewrite (parse_open _ _ _ Hopen).
  destruct (for_lines (readlines content)) as [v|] eqn:H.
  - intros [= ->]. right.
    apply for_lines_some_inv in H as (l1 & ln & l2 & Hlines & _ & Hv).
    apply version_of_inv in Hv
      as (ws1 & id & ws2 & body & tail & -> & _ & _ & _ & _ & _ & [= <-]).
    exists (concat l1 ++ define_line ws1 id ws2 []), (tail ++ concat l2).
    rewrite <- (concat_splitlines (universal_newlines content)).
    fold (readlines content). rewrite Hlines, concat_app, concat_cons.
    rewrite (define_line_app ws1 id ws2 (quoted s ++ tail)).
    now rewrite <- !app_assoc.
  - intros [= <-]. left. split; [|reflexivity].
    clear Hopen. induction (readlines content) as [|l lines IH];
      [reflexivity|].
    rewrite for_lines_cons in H.
    destruct (version_of l) eqn:Hl; [discriminate|].
    cbn [forallb]. rewrite (IH H), andb_true_r.
    now apply no_match_version_of.
Qed.

Lemma result_comes_from_file_witness :
  (forallb no_match
     (readlines (unlines [comment_line; bar_version_line])) = true
   /\ lit "0.9" = lit "1.0.0")
  \/ exists before after,
       universal_newlines (unlines [comment_line; bar_version_line])
       = before ++ quoted (lit "0.9") ++ after.
Proof.
  apply (result_comes_from_file
           (single_file "a.h" (unlines [comment_line; bar_version_line]))
           "a.h" (unlines [comment_line; bar_version_line]) (lit "0.9"));
    reflexivity.
Defined.

(** ** The value on a line of a file *)

Lemma class_not_dquote c a :
  c <> ANY -> category_mem c a = true -> negb (Ascii.eqb a dquote) = true.
Proof.
  intros Hc Ha. destruct (Ascii.eqb a dquote) eqn:E; [|reflexivity].
  apply Ascii.eqb_eq in E as ->. destruct c; [discriminate.. | congruence].
Qed.

Lemma all_in_quote_free c w :
  c <> ANY -> all_in c w = true -> quote_free w = true.
Proof.
  intros Hc Hw. unfold quote_free. apply forallb_forall. intros a Ha.
  apply (class_not_dquote c); [assumption|].
  now apply all_in_In with w.
Qed.

Lemma quote_free_app u v :
  quote_free (u ++ v) = quote_free u && quote_free v.
Proof. apply forallb_app. Qed.

Lemma some_in_all c w : some_in c w = true -> all_in c w = true.
Proof. now destruct w. Qed.

Lemma define_line_quote_free ws1 id ws2 :
  some_in CATEGORY_SPACE ws1 = true ->
  some_in CATEGORY_WORD id = true ->
  some_in CATEGORY_SPACE ws2 = true ->
  quote_free (define_line ws1 id ws2 []) = true.
Proof.
  intros H1 Hid H2. unfold define_line. rewrite !quote_free_app.
  rewrite (all_in_quote_free CATEGORY_SPACE ws1),
          (all_in_quote_free CATEGORY_WORD id),
          (all_in_quote_free CATEGORY_SPACE ws2);
    try discriminate; try (now apply some_in_all).
  reflexivity.
Qed.

Lemma after_first_quote_app pre r :
  quote_free pre = true -> after_first_quote (pre ++ dquote :: r) = Some r.
Proof.
  induction pre as [|a pre IH]; intros H.
  - reflexivity.
  - cbn [quote_free forallb] in H. apply andb_prop in H as [Ha Hpre].
    apply negb_true_iff in Ha. simpl. now rewrite Ha, IH.
Qed.

Lemma before_last_quote_free t :
  quote_free t = true -> before_last_quote t = None.
Proof.
  induction t as [|a t IH]; intros H; [reflexivity|].
  cbn [quote_free forallb] in H. apply andb_prop in H as [Ha Ht].
  apply negb_true_iff in Ha. simpl. now rewrite IH, Ha.
Qed.

Lemma before_last_quote_app body tail :
  quote_free tail = true ->
  before_last_quote (body ++ dquote :: tail) = Some body.
Proof.
  intros Ht. induction body as [|a body IH].
  - simpl. now rewrite before_last_quote_free.
  - simpl. now rewrite IH.
Qed.

Lemma nl_last_app_r x t : nl_last (x ++ t) = true -> nl_last t = true.
Proof.
  induction x as [|a x IH]; [auto|]. simpl.
  destruct (Ascii.eqb a newline); [|exact IH].
  destruct x; [|discriminate]. simpl. destruct t; [reflexivity|discriminate].
Qed.

Lemma closes_false_quote_free t :
  nl_last t = true -> closes t = false -> quote_free t = true.
Proof.
  induction t as [|a t IH]; [reflexivity|]. simpl.
  destruct (Ascii.eqb a newline) eqn:Enl.
  - apply Ascii.eqb_eq in Enl as ->. destruct t; [reflexivity|discriminate].
  - destruct (Ascii.eqb a dquote); [discriminate|]. simpl. exact IH.
Qed.

(** X5: on a line of a file the value of a match is the text between the
    first and the last double quote of the line. *)
Theorem value_between_outer_quotes content ln v :
  In ln (readlines content) ->
  version_of ln = Some v ->
  exists s, between_outer_quotes ln = Some s /\ v = PyStr s.
Proof.
  intros Hln Hv.
  apply readlines_In_line in Hln.
  apply version_of_inv in Hv
    as (ws1 & id & ws2 & body & tail & -> & H1 & Hid & H2 & _ & Hc & ->).
  exists body. split; [|reflexivity].
  assert (Hnl : nl_last (define_line ws1 id ws2 (quoted body ++ tail)) = true).
  { destruct (define_line ws1 id ws2 (quoted body ++ tail));
      [discriminate|exact Hln]. }
  rewrite (define_line_app ws1 id ws2 (quoted body ++ tail)), quoted_app in *.
  unfold between_outer_quotes.
  rewrite after_first_quote_app by now apply define_line_quote_free.
  apply before_last_quote_app.
  apply closes_false_quote_free; [|assumption].
  apply nl_last_app_r
    with (x := define_line ws1 id ws2 [] ++ dquote :: body ++ [dquote]).
  rewrite <- Hnl. f_equal. rewrite <- !app_assoc. simpl.
  now rewrite <- !app_assoc.
Qed.

Lemma value_between_outer_quotes_witness :
  exists s,
    between_outer_quotes
      (lit "#define FOO_VERSION " ++ quoted two_literals ++ [newline])
    = Some s
    /\ PyStr two_literals = PyStr s.
Proof.
  apply (value_between_outer_quotes
           (unlines [comment_line;
                     lit "#define FOO_VERSION " ++ quoted two_literals])).
  - right. left. reflexivity.
  - reflexivity.
Defined.

(** ** The end of a line *)

Lemma closes_snoc_newline t : closes (t ++ [newline]) = closes t.
Proof.
  induction t as [|a t IH]; [reflexivity|]. simpl.
  destruct (Ascii.eqb a newline); [reflexivity|].
  now destruct (Ascii.eqb a dquote).
Qed.

Lemma define_line_snoc ws1 id ws2 value c :
  define_line ws1 id ws2 value ++ [c] = define_line ws1 id ws2 (value ++ [c]).
Proof. unfold define_line. now rewrite <- !app_assoc. Qed.

Lemma version_of_add_newline ln v :
  version_of ln = Some v -> version_of (ln ++ [newline]) = Some v.
Proof.
  intros H. apply version_of_inv in H
    as (ws1 & id & ws2 & body & tail & -> & H1 & Hid & H2 & Hb & Hc & ->).
  rewrite define_line_snoc, <- app_assoc.
  apply version_of_quoted; try assumption.
  now rewrite closes_snoc_newline.
Qed.

Lemma version_of_drop_newline ln v :
  version_of (ln ++ [newline]) = Some v -> version_of ln = Some v.
Proof.
  intros H. apply version_of_inv in H
    as (ws1 & id & ws2 & body & tail & E & H1 & Hid & H2 & Hb & Hc & ->).
  induction tail as [|c t _] using rev_ind.
  - exfalso. rewrite app_nil_r in E. unfold quoted in E.
    change (dquote :: body ++ [dquote]) with ((dquote :: body) ++ [dquote]) in E.
    rewrite <- define_line_snoc in E.
    apply app_inj_tail in E as [_ E]. discriminate.
  - rewrite app_assoc, <- define_line_snoc in E.
    apply app_inj_tail in E as [-> <-].
    rewrite closes_snoc_newline in Hc.
    now apply version_of_quoted.
Qed.

(** X6: the newline that ends a line has no part in the match: a line
    gives the same value, or fails the same way, with and without it, so
    a last line that lacks its newline is treated like the others. *)
Theorem trailing_newline_immaterial ln :
  version_of (ln ++ [newline]) = version_of ln.
Proof.
  destruct (version_of ln) as [v|] eqn:H.
  - now apply version_of_add_newline.
  - destruct (version_of (ln ++ [newline])) as [v|] eqn:H'; [|reflexivity].
    apply version_of_drop_newline in H'. congruence.
Qed.

(** ** The module *)


(** ** Files put end to end *)

Lemma un_app_nl (c1 c2 : text) :
  universal_newlines (c1 ++ newline :: c2)
  = universal_newlines (c1 ++ [newline]) ++ universal_newlines c2.
Proof.
  induction c1 as [|a s Ha IH| |s IH|b s Hb IH] using text_cr_ind.
  - reflexivity.
  - cbn [app]. rewrite !un_cons_other by assumption.
    cbn [app]. now rewrite IH.
  - reflexivity.
  - cbn [app]. rewrite !un_cr_nl. cbn [app]. now rewrite IH.
  - cbn [app] in *. rewrite !un_cr_other by assumption.
    cbn [app]. now rewrite IH.
Qed.

Lemma un_snoc_nl (c : text) :
  exists x, universal_newlines (c ++ [newline]) = x ++ [newline].
Proof.
  induction c as [|a s Ha [x IH]| |s [x IH]|b s Hb [x IH]] using text_cr_ind.
  - now exists [].
  - exists (a :: x). cbn [app]. now rewrite un_cons_other, IH.
  - now exists [].
  - exists (newline :: x). cbn [app]. now rewrite un_cr_nl, IH.
  - exists (newline :: x). cbn [app] in *. now rewrite un_cr_other, IH.
Qed.

Lemma splitlines_nil_inv s : splitlines s = [] -> s = [].
Proof.
  intros H. rewrite <- (concat_splitlines s). now rewrite H.
Qed.

Lemma splitlines_app_nl t1 t2 :
  splitlines (t1 ++ newline :: t2)
  = splitlines (t1 ++ [newline]) ++ splitlines t2.
Proof.
  induction t1 as [|a t1 IH]; [reflexivity|]. cbn [app].
  destruct (Ascii.eqb a newline) eqn:Ea.
  - apply Ascii.eqb_eq in Ea as ->. rewrite !splitlines_nl.
    cbn [app]. now rewrite IH.
  - rewrite !splitlines_other by assumption. rewrite IH.
    destruct (splitlines (t1 ++ [newline])) as [|l ls] eqn:E; [|reflexivity].
    apply splitlines_nil_inv in E. now destruct t1.
Qed.

Lemma readlines_app_nl c1 c2 :
  readlines (c1 ++ newline :: c2)
  = readlines (c1 ++ [newline]) ++ readlines c2.
Proof.
  unfold readlines. rewrite un_app_nl.
  destruct (un_snoc_nl c1) as [x ->].
  rewrite <- app_assoc. apply splitlines_app_nl.
Qed.

Lemma for_lines_app l1 l2 :
  for_lines (l1 ++ l2)
  = match for_lines l1 with
    | Some v => Some v
    | None => for_lines l2
    end.
Proof.
  induction l1 as [|l l1 IH]; [reflexivity|]. cbn [app].
  rewrite !for_lines_cons. now destruct (version_of l).
Qed.

Lemma for_lines_none_inv lines :
  for_lines lines = None -> forallb no_match lines = true.
Proof.
  induction lines as [|l lines IH]; [reflexivity|].
  rewrite for_lines_cons.
  destruct (version_of l) eqn:Hl; [discriminate|].
  intros H. cbn [forallb]. rewrite (IH H), andb_true_r.
  now apply no_match_version_of.
Qed.

(** X8: for two files put end to end, the first one ending its last line,
    the extractor gives what it gives for the first file when a line of it
    matches, and what it gives for the second file otherwise. *)
Theorem parse_concat fs fname fs1 fname1 fs2 fname2 c1 c2 :
  fs fname = Some (Text (c1 ++ newline :: c2)) ->
  fs1 fname1 = Some (Text (c1 ++ [newline])) ->
  fs2 fname2 = Some (Text c2) ->
  parse_build_version fs fname
  = if forallb no_match (readlines (c1 ++ [newline]))
    then parse_build_version fs2 fname2
    else parse_build_version fs1 fname1.
Proof.
  intros H H1 H2.
  rewrite (parse_open _ _ _ H), (parse_open _ _ _ H1), (parse_open _ _ _ H2).
  rewrite readlines_app_nl, for_lines_app.
  destruct (for_lines (readlines (c1 ++ [newline]))) as [v|] eqn:E.
  - destruct (forallb no_match (readlines (c1 ++ [newline]))) eqn:Hno;
      [|reflexivity].
    apply for_lines_none in Hno. congruence.
  - now rewrite (for_lines_none_inv _ E).
Qed.

Lemma parse_concat_witness :
  parse_build_version
    (single_file "all.h"
       (unlines [comment_line; unquoted_line] ++ unlines [foo_version_line]))
    "all.h"
  = parse_build_version (single_file "b.h" (unlines [foo_version_line])) "b.h".
Proof.
  apply (parse_concat
           (single_file "all.h"
              (unlines [comment_line; unquoted_line]
               ++ unlines [foo_version_line]))
           "all.h"
           (single_file "a.h" (unlines [comment_line; unquoted_line])) "a.h"
           (single_file "b.h" (unlines [foo_version_line])) "b.h"
           (comment_line ++ newline :: unquoted_line)
           (unlines [foo_version_line])).
  - vm_compute. reflexivity.
  - vm_compute. reflexivity.
  - reflexivity.
Defined.

(** ** Line endings *)

Lemma un_line_crlf l rest :
  existsb (Ascii.eqb carriage_return) l = false ->
  universal_newlines (l ++ carriage_return :: newline :: rest)
  = l ++ newline :: universal_newlines rest.
Proof.
  induction l as [|a l IH]; [reflexivity|].
  cbn [existsb app]. intros H. apply orb_false_elim in H as [Ha Hl].
  rewrite Ascii.eqb_sym in Ha.
  now rewrite un_cons_other, IH.
Qed.

Lemma un_line_lf l rest :
  existsb (Ascii.eqb carriage_return) l = false ->
  universal_newlines (l ++ newline :: rest)
  = l ++ newline :: universal_newlines rest.
Proof.
  induction l as [|a l IH]; [reflexivity|].
  cbn [existsb app]. intros H. apply orb_false_elim in H as [Ha Hl].
  rewrite Ascii.eqb_sym in Ha.
  now rewrite un_cons_other, IH.
Qed.

Lemma un_unlines_crlf lines :
  forallb (fun l => negb (existsb (Ascii.eqb carriage_return) l)) lines = true ->
  universal_newlines (unlines_crlf lines)
  = universal_newlines (unlines lines).
Proof.
  unfold unlines_crlf, unlines.
  induction lines as [|l lines IH]; [reflexivity|].
  cbn [forallb map]. intros H. apply andb_prop in H as [Hl Hlines].
  apply negb_true_iff in Hl.
  rewrite !concat_cons, <- !app_assoc. cbn [app].
  now rewrite un_line_crlf, un_line_lf, IH.
Qed.

(** X9: the line endings of the header do not matter: lines without
    carriage return give the same result whether the file ends them with
    CR LF or with LF. *)
Theorem line_endings_immaterial fs1 fname1 fs2 fname2 lines :
  forallb (fun l => negb (existsb (Ascii.eqb carriage_return) l)) lines = true ->
  fs1 fname1 = Some (Text (unlines_crlf lines)) ->
  fs2 fname2 = Some (Text (unlines lines)) ->
  parse_build_version fs1 fname1 = parse_build_version fs2 fname2.
Proof.
  intros Hlines H1 H2.
  rewrite (parse_open _ _ _ H1), (parse_open _ _ _ H2).
  unfold readlines. now rewrite un_unlines_crlf.
Qed.

Lemma line_endings_immaterial_witness :
  parse_build_version
    (single_file "dos.h" (unlines_crlf [unquoted_line; bar_version_line]))
    "dos.h"
  = parse_build_version
      (single_file "unix.h" (unlines [unquoted_line; bar_version_line]))
      "unix.h".
Proof.
  apply (line_endings_immaterial
           (single_file "dos.h" (unlines_crlf [unquoted_line; bar_version_line]))
           "dos.h"
           (single_file "unix.h" (unlines [unquoted_line; bar_version_line]))
           "unix.h" [unquoted_line; bar_version_line]).
  - reflexivity.
  - reflexivity.
  - reflexivity.
Defined.

(** ** The name and the spacing *)

Lemma version_of_define_none ws1 id ws2 value :
  some_in CATEGORY_SPACE ws1 = true ->
  some_in CATEGORY_WORD id = true ->
  some_in CATEGORY_SPACE ws2 = true ->
  starts_in CATEGORY_SPACE value = false ->
  run group_pat 0 value [] = None ->
  version_of (define_line ws1 id ws2 value) = None.
Proof.
  intros H1 Hid H2 Hv A.
  rewrite version_of_run, run_define_line by assumption.
  destruct (run group_pat (length (define_line ws1 id ws2 [])) value [])
    as [r|] eqn:B; [|reflexivity].
  apply run_group_inv in B as (body & tail & -> & Hb & Hc & _).
  rewrite run_group_some in A by assumption. discriminate.
Qed.

(** X10: the value does not depend on the name defined nor on the amount
    of white space: two well-formed definitions with the same text after
    the white space that follows the name give the same result. *)
Theorem value_independent_of_name ws1 id ws2 ws1' id' ws2' value :
  some_in CATEGORY_SPACE ws1 = true ->
  some_in CATEGORY_WORD id = true ->
  some_in CATEGORY_SPACE ws2 = true ->
  some_in CATEGORY_SPACE ws1' = true ->
  some_in CATEGORY_WORD id' = true ->
  some_in CATEGORY_SPACE ws2' = true ->
  starts_in CATEGORY_SPACE value = false ->
  version_of (define_line ws1 id ws2 value)
  = version_of (define_line ws1' id' ws2' value).
Proof.
  intros H1 Hid H2 H1' Hid' H2' Hv.
  destruct (run group_pat 0 value []) as [r|] eqn:A.
  - apply run_group_inv in A as (body & tail & -> & Hb & Hc & _).
    rewrite <- quoted_app.
    now rewrite !version_of_quoted.
  - now rewrite !version_of_define_none.
Qed.

Lemma value_independent_of_name_witness :
  version_of (lit "#define FOO_VERSION " ++ quoted (lit "2.3.1"))
  = version_of (lit "#define   EVFS_BUILD_VERSION" ++ "009"%char
                :: quoted (lit "2.3.1")).
Proof.
  apply (value_independent_of_name
           (lit " ") (lit "FOO") (lit " ")
           (lit "   ") (lit "EVFS_BUILD") ["009"%char]
           (quoted (lit "2.3.1"))); reflexivity.
Defined.
